(** * PI_numerical_integration: the trapezoid integrator and its parallel driver

    A shallow embedding of [PI_metoda_całkowania.cpp]: the integrand [f], the
    chunk integrator [integrate], the coordinator [calculatePi] and [main].

    - [int] is modelled as [Z] with the two's complement wrap-around of a
      32-bit register written out ([wrap]); signed overflow is undefined in
      C++, so theorems about arithmetic carry the range of the type as a
      hypothesis ([Int.in_int]).
    - [double] is modelled by Rocq's primitive binary64 floats, every
      operation rounded on its own to nearest-even, as on a target that
      evaluates [double] expressions in [double] without contraction.
    - The shared [results] vector is a list updated by index; a run of the
      worker threads is the order in which their single writes land. *)

From Stdlib Require Import ZArith Uint63 PrimFloat FloatOps SpecFloat FloatAxioms.
From stdpp Require Import base list strings.

Open Scope Z_scope.

(** ** 32-bit signed integers *)

Module Int.

Definition min_int : Z := -2147483648.
Definition max_int : Z := 2147483647.

Definition in_int (z : Z) : Prop := min_int <= z <= max_int.

(** What a 32-bit two's complement register keeps of [z]. *)
Definition wrap (z : Z) : Z := (z + 2147483648) mod 4294967296 - 2147483648.

Definition add (a b : Z) : Z := wrap (a + b).
Definition sub (a b : Z) : Z := wrap (a - b).
Definition mul (a b : Z) : Z := wrap (a * b).
(** [/] on [int] truncates toward zero. *)
Definition div (a b : Z) : Z := wrap (a ÷ b).

(** Conversion [int -> double]; exact on the whole range of [int]. *)
Definition to_double (z : Z) : float :=
  if z <? 0 then PrimFloat.opp (PrimFloat.of_uint63 (Uint63.of_Z (- z)))
  else PrimFloat.of_uint63 (Uint63.of_Z z).

End Int.

(** ** The integrand and the integrator *)

(** [double f(double x) { return 4.0 / (1.0 + x * x); }] *)
Definition f (x : float) : float := (4 / (1 + x * x))%float.

(** One pass of the body of the [for] loop of [integrate] at index [i], with
    the running [sum]. *)
Definition integrate_body (step : float) (i : Z) (sum : float) : float :=
  let x0 := (Int.to_double i * step)%float in
  let x1 := (Int.to_double (Int.add i 1) * step)%float in
  (sum + (f x0 + f x1) * step / 2)%float.

(** [for (int i = start; i < end; ++i) { ... }]: the guard is tested before
    every pass; [fuel] bounds the number of passes. *)
Fixpoint integrate_loop (fuel : nat) (step : float) (i end_ : Z) (sum : float)
  : float :=
  match fuel with
  | O => sum
  | S fuel' =>
      if i <? end_
      then integrate_loop fuel' step (Int.add i 1) end_ (integrate_body step i sum)
      else sum
  end.

(** The loop of [integrate] entered with a given value of [sum]. The fuel is
    the number of indices in [[start, end)]; [integrate_loop_fuel] shows that
    the guard has failed when it is used up. *)
Definition integrate_from (sum : float) (start end_ total_intervals : Z) : float :=
  let step := (1 / Int.to_double total_intervals)%float in
  integrate_loop (Z.to_nat (end_ - start)) step start end_ sum.

(** [double integrate(int start, int end, int total_intervals)] *)
Definition integrate (start end_ total_intervals : Z) : float :=
  integrate_from 0%float start end_ total_intervals.

(** *** The integrator as the specification words it *)

Definition step_of (total_intervals : Z) : float :=
  (1 / Int.to_double total_intervals)%float.

(** [(f(i*step) + f((i+1)*step)) * step / 2] *)
Definition trapezoid (step : float) (i : Z) : float :=
  ((f (Int.to_double i * step) + f (Int.to_double (i + 1) * step)) * step / 2)%float.

(** The trapezoids of the indices [start, start+1, ..., end-1], added to 0.0
    one after the other in that order. *)
Definition trapezoid_sum (start end_ total_intervals : Z) : float :=
  foldl (fun acc i => (acc + trapezoid (step_of total_intervals) i)%float)
        0%float (seqZ start (end_ - start)).

(** ** The coordinator *)

(** [int intervals_per_thread = total_intervals / num_threads;] *)
Definition intervals_per_thread (total_intervals num_threads : Z) : Z :=
  Int.div total_intervals num_threads.

(** [int start = i * intervals_per_thread;] *)
Definition chunk_start (total_intervals num_threads i : Z) : Z :=
  Int.mul i (intervals_per_thread total_intervals num_threads).

(** [int end = (i == num_threads - 1) ? total_intervals
                                      : (i + 1) * intervals_per_thread;] *)
Definition chunk_end (total_intervals num_threads i : Z) : Z :=
  if i =? Int.sub num_threads 1 then total_intervals
  else Int.mul (Int.add i 1) (intervals_per_thread total_intervals num_threads).

(** What the lambda handed to [std::thread] captures by value. *)
Record task := Task { t_index : Z; t_start : Z; t_end : Z }.

(** The first [for] loop of [calculatePi]: one thread per [i] in
    [0, num_threads), pushed in that order. *)
Definition spawn (total_intervals num_threads : Z) : list task :=
  (fun i => Task i (chunk_start total_intervals num_threads i)
                   (chunk_end total_intervals num_threads i))
  <$> seqZ 0 num_threads.

(** The chunks handed out, in worker order. *)
Definition chunks (total_intervals num_threads : Z) : list (Z * Z) :=
  (fun t => (t_start t, t_end t)) <$> spawn total_intervals num_threads.

(** The slot of [results] a thread writes, and the value it writes there. *)
Definition slot (t : task) : nat := Z.to_nat (t_index t).
Definition value (total_intervals : Z) (t : task) : float :=
  integrate (t_start t) (t_end t) total_intervals.

(** The body of a thread: [results[i] = integrate(start, end, total_intervals)].
    The write is the only effect of a thread; an index outside the vector
    (which [calculatePi] never produces) is left without effect here. *)
Definition run_task (total_intervals : Z) (results : list float) (t : task)
  : list float :=
  <[slot t := value total_intervals t]> results.

(** The threads run to completion in some order: [order] lists them by the
    moment their write lands. The join loop returns once all have finished. *)
Definition join_all (total_intervals : Z) (order : list task)
    (results : list float) : list float :=
  foldl (run_task total_intervals) results order.

(** [for (double result : results) pi += result;] from [pi = 0.0]. *)
Definition sum_results (results : list float) : float :=
  foldl PrimFloat.add 0%float results.

(** The numerical part of [calculatePi] on a run whose threads complete in
    the order [order]. *)
Definition calculatePi_run (total_intervals num_threads : Z) (order : list task)
  : float :=
  let results := replicate (Z.to_nat num_threads) 0%float in
  let results := join_all total_intervals order results in
  sum_results results.

(** A completion order of the threads that [calculatePi] launches. *)
Definition completion_order (total_intervals num_threads : Z) (order : list task)
  : Prop :=
  order ≡ₚ spawn total_intervals num_threads.

(** The run in which the threads complete in the order they were launched. *)
Definition calculatePi (total_intervals num_threads : Z) : float :=
  calculatePi_run total_intervals num_threads (spawn total_intervals num_threads).

(** The partial result of worker [i]. *)
Definition partial_result (total_intervals num_threads i : Z) : float :=
  integrate (chunk_start total_intervals num_threads i)
            (chunk_end total_intervals num_threads i) total_intervals.

(** ** Console input and output *)

(** What is written to a stream: text, an [int], or a [double] under
    [std::fixed << std::setprecision(prec)]. *)
Inductive out_item :=
| Text (s : string)
| IntNum (n : Z)
| Fixed (prec : nat) (x : float).

Definition nl : string := String (Ascii.ascii_of_nat 10) EmptyString.

(** The line [calculatePi] writes to standard output before it returns;
    [elapsed] is the reading of the clock, in seconds. *)
Definition time_line (num_threads : Z) (elapsed : float) : list out_item :=
  [Text "Czas obliczen z "; IntNum num_threads; Text " watkami: ";
   Fixed 6 elapsed; Text (" sekund." +:+ nl)].

(** [calculatePi] with its output: the value returned and what was printed. *)
Definition calculatePi_io (total_intervals num_threads : Z) (order : list task)
    (elapsed : float) : float * list out_item :=
  (calculatePi_run total_intervals num_threads order,
   time_line num_threads elapsed).

Record outcome := Outcome {
  to_stdout : list out_item;
  to_stderr : list out_item;
  exit_status : Z
}.

(** [int main()]: [input] is the value [std::cin >> num_threads] stores;
    [order] and [elapsed] are the completion order of the threads and the
    elapsed time of the run. *)
Definition main (input : Z) (order : list task) (elapsed : float) : outcome :=
  let total_intervals := 100000000 in
  let num_threads := input in
  let prompt := [Text "Podaj liczbe watkow (1-50): "] in
  if (num_threads <? 1) || (num_threads >? 50) then
    Outcome prompt [Text ("Liczba watkow musi byc w przedziale 1-50." +:+ nl)] 1
  else
    let '(pi, printed) := calculatePi_io total_intervals num_threads order elapsed in
    Outcome (prompt ++ printed
               ++ [Text "Przyblizona wartosc PI wynosi: "; Fixed 8 pi; Text nl])
            [] 0.

(** ** Partitions of an index range *)

(** [tiles cs lo hi]: the half-open ranges [cs], in order, each starting
    where the one before ended, lead from [lo] to [hi]. *)
Fixpoint tiles (cs : list (Z * Z)) (lo hi : Z) : Prop :=
  match cs with
  | [] => lo = hi
  | (a, b) :: cs' => a = lo /\ a <= b /\ tiles cs' b hi
  end.

Definition sizes_sum (cs : list (Z * Z)) : Z :=
  foldr (fun c s => (c.2 - c.1) + s) 0 cs.

(** The chunk values of a partition, each computed on its own, added to 0.0
    in chunk order. *)
Definition sum_over_chunks (total_intervals : Z) (cs : list (Z * Z)) : float :=
  foldl (fun acc c => (acc + integrate c.1 c.2 total_intervals)%float) 0%float cs.

(** ** Arithmetic that stays in range *)

Lemma int_wrap_id z : Int.in_int z -> Int.wrap z = z.
Proof.
  unfold Int.in_int, Int.wrap, Int.min_int, Int.max_int. intros Hz.
  rewrite Z.mod_small; lia.
Qed.

Lemma int_add_id a b : Int.in_int (a + b) -> Int.add a b = a + b.
Proof. apply int_wrap_id. Qed.

Lemma int_sub_id a b : Int.in_int (a - b) -> Int.sub a b = a - b.
Proof. apply int_wrap_id. Qed.

Lemma int_mul_id a b : Int.in_int (a * b) -> Int.mul a b = a * b.
Proof. apply int_wrap_id. Qed.

Lemma int_div_id a b : Int.in_int (a ÷ b) -> Int.div a b = a ÷ b.
Proof. apply int_wrap_id. Qed.

(** ** The integrator: proofs *)

Section Integrator.

Variable step : float.

Lemma integrate_loop_guard fuel i end_ sum :
  end_ <= i -> integrate_loop fuel step i end_ sum = sum.
Proof.
  intros Hle. destruct fuel as [|fuel]; simpl; [done|].
  destruct (Z.ltb_spec i end_); [lia | done].
Qed.

Lemma integrate_body_trapezoid i sum :
  Int.in_int (i + 1) ->
  integrate_body step i sum = (sum + trapezoid step i)%float.
Proof.
  intros Hi. unfold integrate_body, trapezoid. by rewrite int_add_id.
Qed.


(** The loop adds the trapezoids of [i, i+1, ..., end-1] to [sum], in that
    order. *)
Lemma integrate_loop_foldl fuel i end_ sum :
  Int.min_int <= i -> end_ <= Int.max_int ->
  fuel = Z.to_nat (end_ - i) ->
  integrate_loop fuel step i end_ sum
  = foldl (fun acc j => (acc + trapezoid step j)%float) sum (seqZ i (end_ - i)).
Proof.
  revert i sum. induction fuel as [|fuel IH]; intros i sum Hlo Hhi Hfuel.
  - rewrite seqZ_nil by lia. done.
  - rewrite seqZ_cons by lia. simpl.
    destruct (Z.ltb_spec i end_); [|lia].
    rewrite int_add_id by (unfold Int.in_int; lia).
    rewrite integrate_body_trapezoid by (unfold Int.in_int; lia).
    rewrite IH by lia.
    by replace (Z.pred (end_ - i)) with (end_ - (i + 1)) by lia.
Qed.

End Integrator.

Lemma integrate_from_foldl sum start end_ total_intervals :
  Int.min_int <= start -> end_ <= Int.max_int ->
  integrate_from sum start end_ total_intervals
  = foldl (fun acc j => (acc + trapezoid (step_of total_intervals) j)%float)
          sum (seqZ start (end_ - start)).
Proof.
  intros Hlo Hhi. unfold integrate_from. by apply integrate_loop_foldl.
Qed.

(** ** The chunks: arithmetic *)

Section Chunks.

Variables total_intervals num_threads : Z.
Hypothesis total_int : Int.in_int total_intervals.
Hypothesis threads_int : Int.in_int num_threads.
Hypothesis total_nonneg : 0 <= total_intervals.
Hypothesis threads_pos : 1 <= num_threads.

Let ipt := total_intervals / num_threads.

Lemma ipt_bounds : 0 <= ipt /\ num_threads * ipt <= total_intervals.
Proof.
  unfold ipt. split.
  - apply Z.div_pos; lia.
  - apply Z.mul_div_le; lia.
Qed.

Lemma ipt_lt : total_intervals < num_threads * (ipt + 1).
Proof.
  unfold ipt.
  pose proof (Z.div_mod total_intervals num_threads ltac:(lia)).
  pose proof (Z.mod_pos_bound total_intervals num_threads ltac:(lia)).
  lia.
Qed.

Lemma intervals_per_thread_div :
  intervals_per_thread total_intervals num_threads = ipt.
Proof.
  unfold intervals_per_thread.
  assert (Hq : total_intervals ÷ num_threads = ipt)
    by (apply Z.quot_div_nonneg; lia).
  rewrite int_div_id; [done|]. rewrite Hq.
  pose proof ipt_bounds as [H0 H1].
  unfold Int.in_int, Int.min_int, Int.max_int in *. nia.
Qed.

Lemma chunk_start_eq i :
  0 <= i < num_threads ->
  chunk_start total_intervals num_threads i = i * ipt.
Proof.
  intros Hi. unfold chunk_start. rewrite intervals_per_thread_div.
  apply int_mul_id. pose proof ipt_bounds as [H0 H1].
  unfold Int.in_int, Int.min_int, Int.max_int in *. nia.
Qed.

Lemma chunk_end_last :
  chunk_end total_intervals num_threads (num_threads - 1) = total_intervals.
Proof.
  unfold chunk_end.
  rewrite int_sub_id by (unfold Int.in_int, Int.min_int, Int.max_int in *; lia).
  by rewrite Z.eqb_refl.
Qed.

Lemma chunk_end_inner i :
  0 <= i < num_threads - 1 ->
  chunk_end total_intervals num_threads i = (i + 1) * ipt.
Proof.
  intros Hi. unfold chunk_end.
  rewrite int_sub_id by (unfold Int.in_int, Int.min_int, Int.max_int in *; lia).
  destruct (Z.eqb_spec i (num_threads - 1)); [lia|].
  rewrite intervals_per_thread_div.
  rewrite int_add_id by (unfold Int.in_int, Int.min_int, Int.max_int in *; lia).
  apply int_mul_id. pose proof ipt_bounds as [H0 H1].
  unfold Int.in_int, Int.min_int, Int.max_int in *. nia.
Qed.

Lemma chunk_ordered i :
  0 <= i < num_threads ->
  chunk_start total_intervals num_threads i
  <= chunk_end total_intervals num_threads i.
Proof.
  intros Hi. rewrite chunk_start_eq by done.
  pose proof ipt_bounds as [H0 H1].
  destruct (Z.eq_dec i (num_threads - 1)) as [->|Hne].
  - rewrite chunk_end_last. nia.
  - rewrite chunk_end_inner by lia. nia.
Qed.

Lemma chunk_contiguous i :
  0 <= i < num_threads - 1 ->
  chunk_end total_intervals num_threads i
  = chunk_start total_intervals num_threads (i + 1).
Proof.
  intros Hi. rewrite chunk_end_inner by done. by rewrite chunk_start_eq by lia.
Qed.

Lemma chunk_within i :
  0 <= i < num_threads ->
  0 <= chunk_start total_intervals num_threads i
  /\ chunk_end total_intervals num_threads i <= total_intervals.
Proof.
  intros Hi. rewrite chunk_start_eq by done.
  pose proof ipt_bounds as [H0 H1]. split; [nia|].
  destruct (Z.eq_dec i (num_threads - 1)) as [->|Hne].
  - rewrite chunk_end_last. lia.
  - rewrite chunk_end_inner by lia. nia.
Qed.

(** Every index of [[0, total_intervals)] lies in one chunk, and in no
    other. *)
Lemma chunk_cover k :
  0 <= k < total_intervals ->
  exists i, 0 <= i < num_threads
    /\ chunk_start total_intervals num_threads i <= k
         < chunk_end total_intervals num_threads i
    /\ forall j, 0 <= j < num_threads ->
         chunk_start total_intervals num_threads j <= k
           < chunk_end total_intervals num_threads j -> j = i.
Proof.
  intros Hk. pose proof ipt_bounds as [H0 H1]. pose proof ipt_lt as H2.
  assert (Hsome : exists i, 0 <= i < num_threads
    /\ chunk_start total_intervals num_threads i <= k
         < chunk_end total_intervals num_threads i).
  { destruct (Z_lt_le_dec k ((num_threads - 1) * ipt)) as [Hin|Hlast].
    - exists (k / ipt).
      assert (0 < ipt) by nia.
      pose proof (Z.div_mod k ipt ltac:(lia)).
      pose proof (Z.mod_pos_bound k ipt ltac:(lia)).
      assert (0 <= k / ipt) by (apply Z.div_pos; lia).
      assert (k / ipt < num_threads - 1) by nia.
      split; [lia|].
      rewrite chunk_start_eq, chunk_end_inner by lia. nia.
    - exists (num_threads - 1). split; [lia|].
      rewrite chunk_start_eq, chunk_end_last by lia. lia. }
  destruct Hsome as (i & Hi & Hik). exists i. do 2 (split; [done|]).
  intros j Hj Hjk.
  rewrite chunk_start_eq in Hik, Hjk by done.
  destruct (Z.eq_dec i (num_threads - 1)) as [Ei|Ei];
    destruct (Z.eq_dec j (num_threads - 1)) as [Ej|Ej]; [lia|..].
  - rewrite chunk_end_inner in Hjk by lia. nia.
  - rewrite chunk_end_inner in Hik by lia. nia.
  - rewrite chunk_end_inner in Hik, Hjk by lia. nia.
Qed.

End Chunks.

(** ** Partitions: proofs *)

Lemma tiles_le cs : forall lo hi, tiles cs lo hi -> lo <= hi.
Proof.
  induction cs as [|[a b] cs IH]; simpl; intros lo hi Ht.
  - lia.
  - destruct Ht as (-> & Hab & Ht). specialize (IH _ _ Ht). lia.
Qed.

Lemma tiles_sizes_sum cs : forall lo hi, tiles cs lo hi -> sizes_sum cs = hi - lo.
Proof.
  induction cs as [|[a b] cs IH]; simpl; intros lo hi Ht.
  - lia.
  - destruct Ht as (-> & Hab & Ht). specialize (IH _ _ Ht).
    unfold sizes_sum in *. simpl. lia.
Qed.

(** Ranges [[s i, e i)] for [i = i0, i0+1, ...] that are ordered and meet end
    to start tile the range from the first start to the last end. *)
Lemma tiles_seqZ (s e : Z -> Z) (len : nat) : forall i0,
  (forall j, i0 <= j < i0 + Z.of_nat len -> s j <= e j) ->
  (forall j, i0 <= j < i0 + Z.of_nat len - 1 -> e j = s (j + 1)) ->
  tiles ((fun i => (s i, e i)) <$> seqZ i0 (Z.of_nat len))
        (s i0) (if len is O then s i0 else e (i0 + Z.of_nat len - 1)).
Proof.
  induction len as [|len IH]; intros i0 Hord Hcont.
  - done.
  - rewrite seqZ_cons by lia. rewrite Nat2Z.inj_succ, Z.pred_succ. simpl.
    split; [done|]. split; [apply Hord; lia|].
    destruct len as [|len'].
    + simpl. f_equal. lia.
    + rewrite Hcont by lia.
      replace (i0 + Z.succ (Z.of_nat (S len')) - 1)
        with (Z.succ i0 + Z.of_nat (S len') - 1) by lia.
      replace (i0 + 1) with (Z.succ i0) by lia.
      apply IH; intros j Hj; [apply Hord | apply Hcont]; lia.
Qed.

Lemma chunks_fmap total_intervals num_threads :
  chunks total_intervals num_threads
  = (fun i => (chunk_start total_intervals num_threads i,
               chunk_end total_intervals num_threads i)) <$> seqZ 0 num_threads.
Proof.
  unfold chunks, spawn. rewrite <- list_fmap_compose. done.
Qed.

Lemma chunks_tiles total_intervals num_threads :
  Int.in_int total_intervals -> Int.in_int num_threads ->
  0 <= total_intervals -> 1 <= num_threads ->
  tiles (chunks total_intervals num_threads) 0 total_intervals.
Proof.
  intros Ht Hn H0 H1. rewrite chunks_fmap.
  pose proof (tiles_seqZ (chunk_start total_intervals num_threads)
                (chunk_end total_intervals num_threads)
                (Z.to_nat num_threads) 0) as Htiles.
  rewrite Z2Nat.id in Htiles by lia.
  destruct (Z.to_nat num_threads) as [|m] eqn:Em; [lia|].
  replace (0 + num_threads - 1) with (num_threads - 1) in Htiles by lia.
  rewrite chunk_end_last in Htiles by done.
  rewrite chunk_start_eq in Htiles by (done || lia).
  simpl in Htiles. apply Htiles.
  - intros j Hj. apply chunk_ordered; (done || lia).
  - intros j Hj. apply chunk_contiguous; (done || lia).
Qed.

(** ** The result vector: proofs *)

Section Results.

Variable total_intervals : Z.

Lemma length_join_all order : forall results,
  length (join_all total_intervals order results) = length results.
Proof.
  unfold join_all.
  induction order as [|t order IH]; intros results; simpl; [done|].
  rewrite IH. apply length_insert.
Qed.

(** A slot that no thread of [order] owns keeps its content. *)
Lemma lookup_join_all_other order k : forall results,
  (forall t, t ∈ order -> slot t <> k) ->
  join_all total_intervals order results !! k = results !! k.
Proof.
  unfold join_all.
  induction order as [|t order IH]; intros results Hk; simpl; [done|].
  rewrite IH.
  - apply list_lookup_insert_ne. apply Hk. by left.
  - intros t' Ht'. apply Hk. by right.
Qed.

(** When no two threads own the same slot, the slot of a thread holds the
    value that thread computed, whatever the order. *)
Lemma lookup_join_all_own order t : forall results,
  NoDup (slot <$> order) -> t ∈ order -> (slot t < length results)%nat ->
  join_all total_intervals order results !! slot t = Some (value total_intervals t).
Proof.
  induction order as [|t' order IH]; intros results Hnd Hin Hlen.
  - by apply elem_of_nil in Hin.
  - rewrite fmap_cons in Hnd. apply NoDup_cons in Hnd as [Hfresh Hnd].
    apply elem_of_cons in Hin as [->|Hin];
      change (join_all total_intervals (t' :: order) results)
        with (join_all total_intervals order (run_task total_intervals results t')).
    + rewrite lookup_join_all_other.
      * by apply list_lookup_insert_eq.
      * intros t Ht E. apply Hfresh. rewrite <- E.
        by apply list_elem_of_fmap_2.
    + apply IH; [done..|]. unfold run_task. by rewrite length_insert.
Qed.

End Results.

Lemma spawn_slots total_intervals num_threads :
  slot <$> spawn total_intervals num_threads = seq 0 (Z.to_nat num_threads).
Proof.
  unfold spawn. rewrite <- list_fmap_compose.
  apply list_eq. intros k. rewrite list_lookup_fmap.
  destruct (decide (Z.of_nat k < num_threads)) as [Hk|Hk].
  - rewrite lookup_seqZ_lt by done. rewrite lookup_seq_lt by lia.
    simpl. unfold slot. simpl. f_equal. lia.
  - rewrite lookup_seqZ_ge by lia. rewrite lookup_seq_ge by lia. done.
Qed.

Lemma completion_order_NoDup total_intervals num_threads order :
  completion_order total_intervals num_threads order ->
  NoDup (slot <$> order).
Proof.
  intros Hp. unfold completion_order in Hp. rewrite Hp, spawn_slots.
  apply NoDup_seq.
Qed.

(** After the join, slot [i] holds the partial result of worker [i]. *)
Lemma join_all_results total_intervals num_threads order :
  completion_order total_intervals num_threads order ->
  join_all total_intervals order (replicate (Z.to_nat num_threads) 0%float)
  = partial_result total_intervals num_threads <$> seqZ 0 num_threads.
Proof.
  intros Hp. apply list_eq. intros k. rewrite list_lookup_fmap.
  destruct (decide (Z.of_nat k < num_threads)) as [Hk|Hk].
  - rewrite lookup_seqZ_lt by done. simpl.
    set (t := Task (Z.of_nat k)
                (chunk_start total_intervals num_threads (Z.of_nat k))
                (chunk_end total_intervals num_threads (Z.of_nat k))).
    assert (Hin : t ∈ order).
    { unfold completion_order in Hp. rewrite Hp. unfold spawn.
      apply list_elem_of_fmap. exists (Z.of_nat k). split; [done|].
      apply elem_of_seqZ. lia. }
    replace k with (slot t) at 1 by (unfold slot, t; simpl; lia).
    rewrite (lookup_join_all_own total_intervals order t).
    + done.
    + by eapply completion_order_NoDup.
    + done.
    + rewrite length_replicate. unfold slot, t. simpl. lia.
  - rewrite lookup_seqZ_ge by lia. simpl.
    apply lookup_ge_None. rewrite length_join_all, length_replicate. lia.
Qed.

(** ** The integrator: what it returns *)

(** C1. For [0 <= start <= end <= total_intervals] and [total_intervals > 0]
    (an [int]), [integrate(start, end, total_intervals)] is the sum, taken in
    increasing order of [i] over [[start, end)] from 0.0, of
    [(f(i*step) + f((i+1)*step)) * step / 2] with [step = 1/total_intervals],
    every operation in double precision. *)
Theorem integrate_trapezoid_sum start end_ total_intervals :
  Int.in_int total_intervals ->
  0 <= start -> start <= end_ -> end_ <= total_intervals ->
  0 < total_intervals ->
  integrate start end_ total_intervals
  = trapezoid_sum start end_ total_intervals.
Proof.
  intros [_ Hmax] H0 H1 H2 Hpos. unfold integrate, trapezoid_sum.
  apply integrate_from_foldl; unfold Int.min_int; lia.
Qed.

Lemma integrate_trapezoid_sum_witness :
  integrate 1 3 4 = trapezoid_sum 1 3 4.
Proof.
  apply (integrate_trapezoid_sum 1 3 4);
    unfold Int.in_int, Int.min_int, Int.max_int; lia.
Defined.

(** C10. For [start >= end] the guard of the loop fails at once, whatever
    bound is put on the number of passes, and [integrate] returns the 0.0 it
    started from; so an empty chunk yields the partial result 0.0. *)
Theorem integrate_empty_range start end_ total_intervals :
  0 < total_intervals -> end_ <= start ->
  integrate start end_ total_intervals = 0%float
  /\ forall fuel,
       integrate_loop fuel (step_of total_intervals) start end_ 0%float = 0%float.
Proof.
  intros _ Hle. split.
  - unfold integrate, integrate_from. apply integrate_loop_guard. lia.
  - intros fuel. apply integrate_loop_guard. lia.
Qed.

Lemma integrate_empty_range_witness :
  integrate 7 7 10 = 0%float /\ integrate 5 2 10 = 0%float.
Proof.
  split.
  - apply (integrate_empty_range 7 7 10); lia.
  - apply (integrate_empty_range 5 2 10); lia.
Defined.

(** ** The chunks: what the coordinator hands out *)

(** C2. For [total_intervals > 0] and [num_threads] in [[1, total_intervals]],
    the chunks of [calculatePi] are ordered ranges that meet end to start from
    0 to [total_intervals], one per worker; their sizes add up to
    [total_intervals]; and every index of [[0, total_intervals)] lies in
    exactly one of them. *)
Theorem chunks_partition total_intervals num_threads :
  Int.in_int total_intervals ->
  0 < total_intervals -> 1 <= num_threads <= total_intervals ->
  tiles (chunks total_intervals num_threads) 0 total_intervals
  /\ length (chunks total_intervals num_threads) = Z.to_nat num_threads
  /\ (forall i, 0 <= i < num_threads - 1 ->
        chunk_end total_intervals num_threads i
        = chunk_start total_intervals num_threads (i + 1))
  /\ chunk_start total_intervals num_threads 0 = 0
  /\ chunk_end total_intervals num_threads (num_threads - 1) = total_intervals
  /\ sizes_sum (chunks total_intervals num_threads) = total_intervals
  /\ (forall k, 0 <= k < total_intervals ->
        exists i, 0 <= i < num_threads
          /\ chunk_start total_intervals num_threads i <= k
               < chunk_end total_intervals num_threads i
          /\ forall j, 0 <= j < num_threads ->
               chunk_start total_intervals num_threads j <= k
                 < chunk_end total_intervals num_threads j -> j = i).
Proof.
  intros Ht Hpos Hn.
  assert (Hnint : Int.in_int num_threads)
    by (unfold Int.in_int, Int.min_int, Int.max_int in *; lia).
  pose proof (chunks_tiles total_intervals num_threads Ht Hnint) as Htiles.
  specialize (Htiles ltac:(lia) ltac:(lia)).
  split; [done|]. split.
  { unfold chunks, spawn. by rewrite !length_fmap, length_seqZ. }
  split; [intros i Hi; apply chunk_contiguous; (done || lia)|].
  split; [rewrite chunk_start_eq by (done || lia); lia|].
  split; [apply chunk_end_last; (done || lia)|].
  split; [rewrite (tiles_sizes_sum _ _ _ Htiles); lia|].
  intros k Hk. apply chunk_cover; (done || lia).
Qed.

Lemma chunks_partition_witness :
  chunks 10 3 = [(0, 3); (3, 6); (6, 10)]
  /\ sizes_sum (chunks 10 3) = 10.
Proof.
  split; [reflexivity|].
  apply (chunks_partition 10 3);
    unfold Int.in_int, Int.min_int, Int.max_int; lia.
Defined.

(** C9. For [total_intervals >= 0] and [num_threads >= 1] (both [int]), every
    worker gets [start <= end], and the chunks cover [[0, total_intervals)]
    exactly; when [total_intervals < num_threads], [intervals_per_thread] is
    0, every worker but the last gets [[0, 0)] and the last gets
    [[0, total_intervals)]. *)
Theorem chunks_small_total total_intervals num_threads :
  Int.in_int total_intervals -> Int.in_int num_threads ->
  0 <= total_intervals -> 1 <= num_threads ->
  (forall i, 0 <= i < num_threads ->
     chunk_start total_intervals num_threads i
     <= chunk_end total_intervals num_threads i)
  /\ tiles (chunks total_intervals num_threads) 0 total_intervals
  /\ (forall k, 0 <= k < total_intervals ->
        exists i, 0 <= i < num_threads
          /\ chunk_start total_intervals num_threads i <= k
               < chunk_end total_intervals num_threads i
          /\ forall j, 0 <= j < num_threads ->
               chunk_start total_intervals num_threads j <= k
                 < chunk_end total_intervals num_threads j -> j = i)
  /\ (forall i k, 0 <= i < num_threads ->
        chunk_start total_intervals num_threads i <= k
          < chunk_end total_intervals num_threads i ->
        0 <= k < total_intervals)
  /\ (total_intervals < num_threads ->
        intervals_per_thread total_intervals num_threads = 0
        /\ (forall i, 0 <= i < num_threads - 1 ->
              chunk_start total_intervals num_threads i = 0
              /\ chunk_end total_intervals num_threads i = 0)
        /\ chunk_start total_intervals num_threads (num_threads - 1) = 0
        /\ chunk_end total_intervals num_threads (num_threads - 1)
           = total_intervals).
Proof.
  intros Ht Hn H0 H1.
  split; [intros i Hi; by apply chunk_ordered|].
  split; [by apply chunks_tiles|].
  split; [intros k Hk; by apply chunk_cover|].
  split.
  { intros i k Hi Hk.
    pose proof (chunk_within total_intervals num_threads Ht Hn H0 H1 i Hi). lia. }
  intros Hlt.
  assert (Hipt : total_intervals / num_threads = 0) by (apply Z.div_small; lia).
  split; [rewrite intervals_per_thread_div by done; done|].
  split.
  { intros i Hi. rewrite chunk_start_eq, chunk_end_inner by (done || lia).
    rewrite Hipt. lia. }
  split; [rewrite chunk_start_eq by (done || lia); rewrite Hipt; lia|].
  by apply chunk_end_last.
Qed.

Lemma chunks_small_total_witness :
  chunks 2 5 = [(0, 0); (0, 0); (0, 0); (0, 0); (0, 2)]
  /\ tiles (chunks 2 5) 0 2.
Proof.
  split; [reflexivity|].
  apply (chunks_small_total 2 5);
    unfold Int.in_int, Int.min_int, Int.max_int; lia.
Defined.

(** ** The coordinator: aggregation *)

Lemma foldl_fmap_add {A} (g : A -> float) (l : list A) : forall acc,
  foldl PrimFloat.add acc (g <$> l)
  = foldl (fun acc x => (acc + g x)%float) acc l.
Proof.
  induction l as [|x l IH]; intros acc; simpl; [done|]. apply IH.
Qed.

(** Whatever the completion order, the value returned is the sum of the
    result vector that holds, slot by slot, the workers' partial results. *)
Lemma calculatePi_run_partial_results total_intervals num_threads order :
  completion_order total_intervals num_threads order ->
  calculatePi_run total_intervals num_threads order
  = sum_results (partial_result total_intervals num_threads <$> seqZ 0 num_threads).
Proof.
  intros Hp. unfold calculatePi_run. by rewrite (join_all_results _ _ _ Hp).
Qed.

(** C3. The value [calculatePi] returns is 0.0 plus the partial result of
    worker 0, plus that of worker 1, and so on up to worker
    [num_threads - 1], in that order. *)
Theorem calculatePi_sums_in_worker_order total_intervals num_threads order :
  0 < total_intervals -> 1 <= num_threads <= 50 ->
  completion_order total_intervals num_threads order ->
  calculatePi_run total_intervals num_threads order
  = foldl (fun pi i => (pi + partial_result total_intervals num_threads i)%float)
          0%float (seqZ 0 num_threads).
Proof.
  intros _ _ Hp. rewrite (calculatePi_run_partial_results _ _ _ Hp).
  unfold sum_results. apply foldl_fmap_add.
Qed.

Lemma calculatePi_sums_in_worker_order_witness :
  calculatePi 4 2
  = (0 + partial_result 4 2 0 + partial_result 4 2 1)%float.
Proof.
  apply (calculatePi_sums_in_worker_order 4 2 (spawn 4 2)); [lia | lia | ].
  unfold completion_order. reflexivity.
Defined.

(** C8. Two runs of [calculatePi] on the same inputs return the same value
    whatever the order in which the workers complete: in a run the slots
    written are [0, 1, ..., num_threads - 1], each once; after the join the
    vector is the same in both runs; and the sum over it is taken in index
    order. *)
Theorem calculatePi_schedule_independent total_intervals num_threads order1 order2 :
  completion_order total_intervals num_threads order1 ->
  completion_order total_intervals num_threads order2 ->
  slot <$> order1 ≡ₚ seq 0 (Z.to_nat num_threads)
  /\ join_all total_intervals order1 (replicate (Z.to_nat num_threads) 0%float)
     = join_all total_intervals order2 (replicate (Z.to_nat num_threads) 0%float)
  /\ calculatePi_run total_intervals num_threads order1
     = calculatePi_run total_intervals num_threads order2.
Proof.
  intros Hp1 Hp2.
  split; [unfold completion_order in Hp1; by rewrite Hp1, spawn_slots|].
  split.
  - by rewrite (join_all_results _ _ _ Hp1), (join_all_results _ _ _ Hp2).
  - by rewrite (calculatePi_run_partial_results _ _ _ Hp1),
               (calculatePi_run_partial_results _ _ _ Hp2).
Qed.

Lemma calculatePi_schedule_independent_witness :
  calculatePi_run 6 3 (reverse (spawn 6 3)) = calculatePi_run 6 3 (spawn 6 3).
Proof.
  apply (calculatePi_schedule_independent 6 3 (reverse (spawn 6 3)) (spawn 6 3)).
  - unfold completion_order. apply reverse_Permutation.
  - unfold completion_order. reflexivity.
Defined.

(** ** The program *)

(** C4. [main] rejects an input below 1 or above 50 with the message on
    standard error and status 1, nothing but the prompt having been printed;
    any other input runs [calculatePi] with [total_intervals = 100000000] and
    ends with status 0 and nothing on standard error. *)
Theorem main_validation input order elapsed :
  (input < 1 \/ 50 < input ->
     to_stderr (main input order elapsed)
     = [Text ("Liczba watkow musi byc w przedziale 1-50." +:+ nl)]
     /\ exit_status (main input order elapsed) = 1
     /\ to_stdout (main input order elapsed)
        = [Text "Podaj liczbe watkow (1-50): "])
  /\ (1 <= input <= 50 ->
        to_stderr (main input order elapsed) = []
        /\ exit_status (main input order elapsed) = 0
        /\ to_stdout (main input order elapsed)
           = Text "Podaj liczbe watkow (1-50): "
             :: time_line input elapsed
             ++ [Text "Przyblizona wartosc PI wynosi: ";
                 Fixed 8 (calculatePi_run 100000000 input order);
                 Text nl]).
Proof.
  unfold main, calculatePi_io. split; intros Hin.
  - destruct (Z.ltb_spec input 1), (Z.gtb_spec input 50); try lia; done.
  - destruct (Z.ltb_spec input 1), (Z.gtb_spec input 50); try lia; done.
Qed.

Lemma main_validation_witness :
  exit_status (main 0 [] 0%float) = 1
  /\ exit_status (main 51 [] 0%float) = 1
  /\ exit_status (main 4 (spawn 100000000 4) 0%float) = 0.
Proof.
  split; [|split].
  - apply (main_validation 0 [] 0%float). lia.
  - apply (main_validation 51 [] 0%float). lia.
  - apply (main_validation 4 (spawn 100000000 4) 0%float). lia.
Defined.

(** ** Decompositions and rounding *)

Lemma float_neq (a b : float) : Prim2SF a <> Prim2SF b -> a <> b.
Proof. intros Hne ->. by apply Hne. Qed.

Lemma sum_results_zeros (l : list float) :
  Forall (fun x => x = 0%float) l -> sum_results l = 0%float.
Proof.
  unfold sum_results. induction 1 as [|x l -> _ IH]; simpl; [done|].
  exact IH.
Qed.

Lemma seqZ_snoc n : 0 < n -> seqZ 0 n = seqZ 0 (n - 1) ++ [n - 1].
Proof.
  intros Hn. replace n with ((n - 1) + 1) at 1 by lia.
  rewrite seqZ_app by lia. done.
Qed.

(** With one thread, or with more threads than intervals, a single chunk
    holds all the indices and the value returned is 0.0 plus the integral
    over the whole range. *)
Lemma calculatePi_run_one_chunk total_intervals num_threads order :
  Int.in_int total_intervals -> Int.in_int num_threads ->
  0 < total_intervals ->
  num_threads = 1 \/ total_intervals < num_threads ->
  completion_order total_intervals num_threads order ->
  calculatePi_run total_intervals num_threads order
  = (0 + integrate 0 total_intervals total_intervals)%float.
Proof.
  intros Ht Hn Hpos Hcase Hp.
  assert (H1 : 1 <= num_threads) by lia.
  rewrite (calculatePi_run_partial_results _ _ _ Hp).
  rewrite seqZ_snoc by lia. rewrite fmap_app. unfold sum_results.
  rewrite foldl_app. fold (sum_results
    (partial_result total_intervals num_threads <$> seqZ 0 (num_threads - 1))).
  rewrite sum_results_zeros; simpl.
  - unfold partial_result.
    rewrite chunk_end_last by (done || lia).
    rewrite chunk_start_eq by (done || lia).
    destruct Hcase as [->|Hlt]; [done|].
    by rewrite Z.div_small by lia; rewrite Z.mul_0_r.
  - apply Forall_fmap, Forall_forall. intros i Hi.
    apply elem_of_seqZ in Hi. simpl. unfold partial_result.
    destruct Hcase as [->|Hlt]; [lia|].
    rewrite chunk_start_eq, chunk_end_inner by (done || lia).
    rewrite Z.div_small by lia. rewrite !Z.mul_0_r.
    unfold integrate, integrate_from. by apply integrate_loop_guard.
Qed.

(** C5, as stated, fails: with 100 intervals, one thread and fifty threads
    return different doubles. *)
Lemma calculatePi_1_50_differ : calculatePi 100 1 <> calculatePi 100 50.
Proof. apply float_neq. vm_compute. discriminate. Qed.

(** C5, amended. For a fixed [total_intervals > 0], [calculatePi] returns the
    same double for [num_threads = 1] and for every [num_threads] above
    [total_intervals]: in each of these runs one chunk holds all the
    indices. *)
Theorem calculatePi_same_when_one_chunk
    total_intervals num_threads1 num_threads2 order1 order2 :
  Int.in_int total_intervals ->
  Int.in_int num_threads1 -> Int.in_int num_threads2 ->
  0 < total_intervals ->
  num_threads1 = 1 \/ total_intervals < num_threads1 ->
  num_threads2 = 1 \/ total_intervals < num_threads2 ->
  completion_order total_intervals num_threads1 order1 ->
  completion_order total_intervals num_threads2 order2 ->
  calculatePi_run total_intervals num_threads1 order1
  = calculatePi_run total_intervals num_threads2 order2.
Proof.
  intros Ht Hn1 Hn2 Hpos Hc1 Hc2 Hp1 Hp2.
  rewrite (calculatePi_run_one_chunk _ _ _ Ht Hn1 Hpos Hc1 Hp1).
  by rewrite (calculatePi_run_one_chunk _ _ _ Ht Hn2 Hpos Hc2 Hp2).
Qed.

Lemma calculatePi_same_when_one_chunk_witness : calculatePi 3 1 = calculatePi 3 50.
Proof.
  apply (calculatePi_same_when_one_chunk 3 1 50 (spawn 3 1) (spawn 3 50));
    try (unfold Int.in_int, Int.min_int, Int.max_int; lia);
    try (unfold completion_order; reflexivity).
Defined.

(** C6, as stated, fails: with 4 intervals, the integral over [[0, 4)]
    differs from the sum of the integrals over [[0, 2)] and [[2, 4)]. *)
Lemma integrate_halves_differ :
  tiles [(0, 2); (2, 4)] 0 4
  /\ integrate 0 4 4 <> sum_over_chunks 4 [(0, 2); (2, 4)].
Proof.
  split; [simpl; lia|]. apply float_neq. vm_compute. discriminate.
Qed.

(** ** Binary64 addition never makes a negative zero out of anything else *)

Section Rounding.

Variables prec emax : Z.
Hypothesis prec_pos : 1 <= prec.

Lemma digits2_pos_lower (m : positive) :
  2 ^ (Z.pos (digits2_pos m) - 1) <= Z.pos m.
Proof.
  induction m as [m IH|m IH|]; simpl digits2_pos.
  - rewrite Pos2Z.inj_succ.
    replace (Z.succ (Z.pos (digits2_pos m)) - 1)
      with (Z.succ (Z.pos (digits2_pos m) - 1)) by lia.
    rewrite Z.pow_succ_r by lia. lia.
  - rewrite Pos2Z.inj_succ.
    replace (Z.succ (Z.pos (digits2_pos m)) - 1)
      with (Z.succ (Z.pos (digits2_pos m) - 1)) by lia.
    rewrite Z.pow_succ_r by lia. lia.
  - simpl. lia.
Qed.

Lemma shr_1_lower (mrs : shr_record) (k : Z) :
  0 <= k -> 2 ^ (k + 1) <= shr_m mrs -> 2 ^ k <= shr_m (shr_1 mrs).
Proof.
  intros Hk. rewrite Z.pow_add_r by lia. change (2 ^ 1) with 2.
  assert (0 < 2 ^ k) by (apply Z.pow_pos_nonneg; lia).
  destruct mrs as [[|[p|p|]|p] r s]; simpl; lia.
Qed.

Lemma iter_shr_1_lower (p : positive) : forall (mrs : shr_record) (k : Z),
  0 <= k -> 2 ^ (Z.pos p + k) <= shr_m mrs ->
  2 ^ k <= shr_m (SpecFloat.iter_pos shr_1 p mrs).
Proof.
  induction p as [p IH|p IH|]; intros mrs k Hk Hm; simpl.
  - apply IH; [done|]. apply IH; [lia|]. apply shr_1_lower; [lia|].
    replace (Z.pos p + (Z.pos p + k) + 1) with (Z.pos p~1 + k) by lia. done.
  - apply IH; [done|]. apply IH; [lia|].
    replace (Z.pos p + (Z.pos p + k)) with (Z.pos p~0 + k) by lia. done.
  - apply shr_1_lower; [done|]. by replace (k + 1) with (1 + k) by lia.
Qed.

(** Shifting a positive mantissa to its format exponent leaves it positive
    when the exponent it starts from is not below [emin]. *)
Lemma shr_fexp_lower (m : positive) (e : Z) (l : location) :
  emin prec emax <= e ->
  1 <= shr_m (shr_fexp prec emax (Z.pos m) e l).1
  /\ emin prec emax <= (shr_fexp prec emax (Z.pos m) e l).2.
Proof.
  intros He. unfold shr_fexp, shr, fexp. simpl Zdigits2.
  pose proof (digits2_pos_lower m) as Hd.
  set (d := Z.pos (digits2_pos m)) in *.
  assert (Hrec : shr_m (shr_record_of_loc (Z.pos m) l) = Z.pos m)
    by (by destruct l as [|[]]).
  destruct (Z.max (d + e - prec) (emin prec emax) - e) as [|p|p] eqn:En;
    simpl; rewrite ?Hrec; try (split; lia).
  split; [|lia].
  change 1 with (2 ^ 0). apply iter_shr_1_lower; [lia|]. rewrite Hrec.
  etransitivity; [|exact Hd]. apply Z.pow_le_mono_r; lia.
Qed.

Lemma round_nearest_even_lower (m : Z) (l : location) :
  m <= round_nearest_even m l.
Proof.
  destruct l as [|[]]; simpl; try lia. destruct (Z.even m); lia.
Qed.

Lemma binary_round_aux_nonzero sx (m : positive) (e : Z) (l : location) s :
  emin prec emax <= e ->
  binary_round_aux prec emax sx (Z.pos m) e l <> S754_zero s.
Proof.
  intros He. unfold binary_round_aux.
  pose proof (shr_fexp_lower m e l He) as [Hm1 He1].
  destruct (shr_fexp prec emax (Z.pos m) e l) as [mrs1 e1]. simpl in Hm1, He1.
  pose proof (round_nearest_even_lower (shr_m mrs1) (loc_of_shr_record mrs1)) as Hr.
  destruct (round_nearest_even (shr_m mrs1) (loc_of_shr_record mrs1))
    as [|m2|m2]; try lia.
  pose proof (shr_fexp_lower m2 e1 loc_Exact He1) as [Hm2 _].
  destruct (shr_fexp prec emax (Z.pos m2) e1 loc_Exact) as [mrs2 e2].
  simpl in Hm2.
  destruct (shr_m mrs2) as [|m3|m3]; try lia.
  by destruct (e2 <=? emax - prec).
Qed.

Lemma binary_round_nonzero sx (m : positive) (e : Z) s :
  emin prec emax <= e ->
  binary_round prec emax sx m e <> S754_zero s.
Proof.
  intros He. unfold binary_round, shl_align.
  destruct (fexp prec emax (Z.pos (digits2_pos m) + e) - e) eqn:En;
    apply binary_round_aux_nonzero; try done.
  unfold fexp. lia.
Qed.

Lemma valid_binary_emin s m e :
  SpecFloat.valid_binary prec emax (S754_finite s m e) = true -> emin prec emax <= e.
Proof.
  unfold SpecFloat.valid_binary, bounded, canonical_mantissa, fexp.
  intros [Hc _]%andb_prop. apply Z.eqb_eq in Hc. lia.
Qed.

(** A sum is the negative zero only when both terms are. *)
Lemma binary_normalize_neg_zero (m e : Z) :
  emin prec emax <= e ->
  binary_normalize prec emax m e false <> S754_zero true.
Proof.
  intros He. destruct m as [|m|m]; simpl; [done|..];
    by apply binary_round_nonzero.
Qed.

(** A sum is the negative zero only when both terms are. *)
Lemma SFadd_neg_zero (x y : spec_float) :
  SpecFloat.valid_binary prec emax x = true ->
  SpecFloat.valid_binary prec emax y = true ->
  SFadd prec emax x y = S754_zero true ->
  x = S754_zero true /\ y = S754_zero true.
Proof.
  intros Hx Hy.
  destruct x as [sx|sx| |sx mx ex], y as [sy|sy| |sy my ey];
    try (by destruct sx; try destruct sy); try done.
  apply valid_binary_emin in Hx, Hy. unfold SFadd. intros Hz.
  by apply binary_normalize_neg_zero in Hz; [|lia].
Qed.

End Rounding.

Lemma add_not_neg_zero (s t : float) :
  Prim2SF s <> S754_zero true -> Prim2SF (s + t)%float <> S754_zero true.
Proof.
  intros Hs Hz. rewrite add_spec in Hz.
  apply SFadd_neg_zero in Hz as [Hx _]; [done | done | apply Prim2SF_valid..].
Qed.

Lemma add_zero_r (x : float) :
  Prim2SF x <> S754_zero true -> (x + 0)%float = x.
Proof.
  intros Hx. apply Prim2SF_inj. rewrite add_spec.
  change (Prim2SF 0) with (S754_zero false).
  destruct (Prim2SF x) as [[]|[]| |[] m e]; done.
Qed.

Lemma add_zero_l (x : float) :
  Prim2SF x <> S754_zero true -> (0 + x)%float = x.
Proof.
  intros Hx. apply Prim2SF_inj. rewrite add_spec.
  change (Prim2SF 0) with (S754_zero false).
  destruct (Prim2SF x) as [[]|[]| |[] m e]; done.
Qed.

(** The running sum of [integrate] is never the negative zero. *)
Lemma integrate_loop_not_neg_zero fuel step : forall i end_ sum,
  Prim2SF sum <> S754_zero true ->
  Prim2SF (integrate_loop fuel step i end_ sum) <> S754_zero true.
Proof.
  induction fuel as [|fuel IH]; intros i end_ sum Hsum; simpl; [done|].
  destruct (i <? end_); [|done].
  apply IH. unfold integrate_body. by apply add_not_neg_zero.
Qed.

Lemma integrate_not_neg_zero start end_ total_intervals :
  Prim2SF (integrate start end_ total_intervals) <> S754_zero true.
Proof.
  unfold integrate, integrate_from. by apply integrate_loop_not_neg_zero.
Qed.

Lemma integrate_empty start end_ total_intervals :
  end_ <= start -> integrate start end_ total_intervals = 0%float.
Proof.
  intros Hle. unfold integrate, integrate_from. by apply integrate_loop_guard.
Qed.

(** Chunks that are all empty add nothing to a sum that is not the negative
    zero, and a tiling made of them does not move. *)
Lemma sum_empty_chunks total_intervals cs : forall acc,
  Forall (fun c : Z * Z => c.2 <= c.1) cs ->
  Prim2SF acc <> S754_zero true ->
  foldl (fun acc c => (acc + integrate c.1 c.2 total_intervals)%float) acc cs
  = acc.
Proof.
  induction cs as [|c cs IH]; intros acc Hall Hacc; simpl; [done|].
  apply Forall_cons in Hall as [Hc Hall].
  rewrite (integrate_empty _ _ _ Hc), add_zero_r by done. by apply IH.
Qed.

Lemma tiles_empty_chunks cs : forall lo hi,
  tiles cs lo hi -> Forall (fun c : Z * Z => c.2 <= c.1) cs -> lo = hi.
Proof.
  induction cs as [|[a b] cs IH]; simpl; intros lo hi Ht Hall; [done|].
  destruct Ht as (-> & Hab & Ht). apply Forall_cons in Hall as [Hc Hall].
  simpl in Hc. specialize (IH _ _ Ht Hall). lia.
Qed.

Lemma filter_nonempty_nil (cs : list (Z * Z)) :
  filter (fun c : Z * Z => c.1 < c.2) cs = [] ->
  Forall (fun c : Z * Z => c.2 <= c.1) cs.
Proof.
  intros Hnil. apply Forall_forall. intros c Hc.
  destruct (Z_lt_le_dec c.1 c.2) as [Hlt|Hle]; [|done].
  by destruct (filter_nil_not_elem_of _ _ c Hnil Hlt).
Qed.

Lemma sum_one_nonempty_chunk total_intervals cs : forall lo hi,
  tiles cs lo hi ->
  (length (filter (fun c : Z * Z => (c.1 < c.2)%Z) cs) <= 1)%nat ->
  foldl (fun acc c => (acc + integrate c.1 c.2 total_intervals)%float)
        0%float cs
  = integrate lo hi total_intervals.
Proof.
  induction cs as [|[a b] cs IH]; simpl; intros lo hi Ht Hone.
  - subst hi. symmetry. by apply integrate_empty.
  - destruct Ht as (-> & Hab & Ht).
    destruct (Z.eq_dec lo b) as [->|Hne].
    + rewrite filter_cons_False in Hone by (simpl; lia).
      rewrite (integrate_empty b b) by lia.
      change (0 + 0)%float with 0%float. by apply IH.
    + rewrite filter_cons_True in Hone by (simpl; lia). simpl in Hone.
      assert (Hall : Forall (fun c : Z * Z => c.2 <= c.1) cs).
      { apply filter_nonempty_nil, nil_length_inv. lia. }
      rewrite (tiles_empty_chunks _ _ _ Ht Hall) in *.
      rewrite add_zero_l by apply integrate_not_neg_zero.
      apply sum_empty_chunks; [done|]. apply integrate_not_neg_zero.
Qed.

(** C6, amended. For every partition of [[0, total_intervals)] into
    contiguous chunks of which at most one is not empty,
    [integrate(0, total_intervals, total_intervals)] is the sum of the values
    [integrate(cj, cj+1, total_intervals)] of the chunks, added to 0.0 in
    chunk order. *)
Theorem integrate_sum_one_nonempty_chunk total_intervals cs :
  0 < total_intervals ->
  tiles cs 0 total_intervals ->
  (length (filter (fun c : Z * Z => (c.1 < c.2)%Z) cs) <= 1)%nat ->
  integrate 0 total_intervals total_intervals
  = sum_over_chunks total_intervals cs.
Proof.
  intros _ Ht Hone. unfold sum_over_chunks. symmetry.
  by apply sum_one_nonempty_chunk.
Qed.

Lemma integrate_sum_one_nonempty_chunk_witness :
  integrate 0 4 4 = sum_over_chunks 4 [(0, 0); (0, 4); (4, 4)].
Proof.
  apply (integrate_sum_one_nonempty_chunk 4 [(0, 0); (0, 4); (4, 4)]).
  - lia.
  - simpl. lia.
  - vm_compute. lia.
Defined.

(** ** The chunks: sizes, idle workers, range of the arithmetic *)

(** X1. Every worker but the last gets [total_intervals / num_threads]
    indices; the last one gets that many plus the remainder of the division,
    which is less than [num_threads]. *)
Theorem chunk_sizes total_intervals num_threads :
  Int.in_int total_intervals -> Int.in_int num_threads ->
  0 <= total_intervals -> 1 <= num_threads ->
  (forall i, 0 <= i < num_threads - 1 ->
     chunk_end total_intervals num_threads i
     - chunk_start total_intervals num_threads i
     = total_intervals / num_threads)
  /\ chunk_end total_intervals num_threads (num_threads - 1)
     - chunk_start total_intervals num_threads (num_threads - 1)
     = total_intervals / num_threads + total_intervals mod num_threads
  /\ 0 <= total_intervals mod num_threads < num_threads.
Proof.
  intros Ht Hn H0 H1. split; [|split].
  - intros i Hi. rewrite chunk_start_eq, chunk_end_inner by (done || lia). lia.
  - rewrite chunk_start_eq, chunk_end_last by (done || lia).
    rewrite (Z.mod_eq total_intervals num_threads) by lia. lia.
  - apply Z.mod_pos_bound. lia.
Qed.

Lemma chunk_sizes_witness :
  chunk_end 10 3 2 - chunk_start 10 3 2 = 10 / 3 + 10 mod 3.
Proof.
  apply (chunk_sizes 10 3);
    unfold Int.in_int, Int.min_int, Int.max_int; lia.
Defined.

(** X2. Every worker has at least one index to integrate exactly when there
    are no more threads than intervals. *)
Theorem no_idle_worker_iff total_intervals num_threads :
  Int.in_int total_intervals -> Int.in_int num_threads ->
  0 <= total_intervals -> 1 <= num_threads ->
  (forall i, 0 <= i < num_threads ->
     chunk_start total_intervals num_threads i
     < chunk_end total_intervals num_threads i)
  <-> num_threads <= total_intervals.
Proof.
  intros Ht Hn H0 H1.
  pose proof (ipt_bounds total_intervals num_threads H0 H1) as [Hq0 Hq1].
  simpl in Hq0, Hq1. split.
  - intros Hbusy. specialize (Hbusy 0 ltac:(lia)).
    rewrite chunk_start_eq in Hbusy by (done || lia).
    destruct (Z.eq_dec num_threads 1) as [->|Hne].
    + change (chunk_end total_intervals 1 0)
        with (chunk_end total_intervals 1 (1 - 1)) in Hbusy.
      rewrite chunk_end_last in Hbusy by done. lia.
    + rewrite chunk_end_inner in Hbusy by (done || lia).
      destruct (Z_lt_le_dec total_intervals num_threads) as [Hlt|Hle]; [|done].
      rewrite Z.div_small in Hbusy by lia. lia.
  - intros Hle i Hi.
    assert (0 < total_intervals / num_threads) by (apply Z.div_str_pos; lia).
    rewrite chunk_start_eq by (done || lia).
    destruct (Z.eq_dec i (num_threads - 1)) as [->|Hne].
    + rewrite chunk_end_last by done. nia.
    + rewrite chunk_end_inner by (done || lia). nia.
Qed.

Lemma no_idle_worker_iff_witness :
  (forall i, 0 <= i < 3 -> chunk_start 10 3 i < chunk_end 10 3 i) <-> 3 <= 10.
Proof.
  apply (no_idle_worker_iff 10 3);
    unfold Int.in_int, Int.min_int, Int.max_int; lia.
Defined.

(** X3. For [int] arguments with [total_intervals >= 0] and
    [num_threads >= 1], no operation on [int] in [calculatePi] leaves the
    range of the type: the quotient, [num_threads - 1], the product for
    [start], and, for every worker but the last (the only ones that evaluate
    it), [i + 1] and the product for [end]. *)
Theorem chunk_arithmetic_in_range total_intervals num_threads :
  Int.in_int total_intervals -> Int.in_int num_threads ->
  0 <= total_intervals -> 1 <= num_threads ->
  Int.in_int (total_intervals ÷ num_threads)
  /\ Int.in_int (num_threads - 1)
  /\ forall i, 0 <= i < num_threads ->
       Int.in_int (i * intervals_per_thread total_intervals num_threads)
       /\ (i <> Int.sub num_threads 1 ->
            Int.in_int (i + 1)
            /\ Int.in_int
                 ((i + 1) * intervals_per_thread total_intervals num_threads)).
Proof.
  intros Ht Hn H0 H1.
  pose proof (ipt_bounds total_intervals num_threads H0 H1) as [Hq0 Hq1].
  simpl in Hq0, Hq1.
  rewrite Z.quot_div_nonneg by lia.
  rewrite intervals_per_thread_div by done.
  rewrite int_sub_id by (unfold Int.in_int, Int.min_int, Int.max_int in *; lia).
  unfold Int.in_int, Int.min_int, Int.max_int in *.
  split; [nia|]. split; [lia|]. intros i Hi. split; [nia|].
  intros Hne. split; [lia|nia].
Qed.

Lemma chunk_arithmetic_in_range_witness :
  Int.in_int (2147483647 ÷ 50) /\ Int.in_int (50 - 1).
Proof.
  pose proof (chunk_arithmetic_in_range 2147483647 50) as H.
  destruct H as (Hq & Hs & _);
    try (unfold Int.in_int, Int.min_int, Int.max_int; lia).
  by split.
Defined.

(** ** The result vector while the threads run *)

Lemma elem_of_spawn total_intervals num_threads t :
  t ∈ spawn total_intervals num_threads <->
  0 <= t_index t < num_threads
  /\ t = Task (t_index t)
           (chunk_start total_intervals num_threads (t_index t))
           (chunk_end total_intervals num_threads (t_index t)).
Proof.
  unfold spawn. rewrite list_elem_of_fmap. split.
  - intros (i & -> & Hi). apply elem_of_seqZ in Hi. simpl. split; [lia|done].
  - intros (Hi & Ht). exists (t_index t). split; [done|].
    apply elem_of_seqZ. lia.
Qed.

(** X4. Every thread that [calculatePi] launches writes inside the vector
    [results], at the index of its worker, and is given the chunk of that
    worker. *)
Theorem spawned_write_in_bounds total_intervals num_threads t :
  t ∈ spawn total_intervals num_threads ->
  (slot t < length (replicate (Z.to_nat num_threads) 0%float))%nat
  /\ Z.of_nat (slot t) = t_index t
  /\ t_start t = chunk_start total_intervals num_threads (t_index t)
  /\ t_end t = chunk_end total_intervals num_threads (t_index t).
Proof.
  intros Hin. apply elem_of_spawn in Hin as [Hi Ht].
  rewrite length_replicate. unfold slot.
  split; [lia|]. split; [lia|]. rewrite Ht. simpl. done.
Qed.

Lemma spawned_write_in_bounds_witness :
  (slot (Task 2 6 10) < length (replicate (Z.to_nat 3) 0%float))%nat.
Proof.
  apply (spawned_write_in_bounds 10 3 (Task 2 6 10)).
  vm_compute. do 2 right. left.
Defined.

(** X5. At any moment of a run, when the threads [finished] have completed
    and the threads [pending] have not, the slot of a worker that has
    completed holds its partial result and every other slot still holds the
    0.0 it was created with. *)
Theorem results_during_run total_intervals num_threads finished pending i :
  completion_order total_intervals num_threads (finished ++ pending) ->
  0 <= i < num_threads ->
  join_all total_intervals finished (replicate (Z.to_nat num_threads) 0%float)
    !! Z.to_nat i
  = Some (if decide (i ∈ t_index <$> finished)
          then partial_result total_intervals num_threads i
          else 0%float).
Proof.
  intros Hp Hi.
  assert (Hspawn : forall t, t ∈ finished -> t ∈ spawn total_intervals num_threads).
  { intros t Ht. unfold completion_order in Hp. rewrite <- Hp.
    apply elem_of_app. by left. }
  assert (Hnd : NoDup (slot <$> finished)).
  { apply completion_order_NoDup in Hp. rewrite fmap_app in Hp.
    by apply NoDup_app in Hp as (Hnd & _ & _). }
  destruct (decide (i ∈ t_index <$> finished)) as [Hin|Hout].
  - apply list_elem_of_fmap in Hin as (t & -> & Ht).
    pose proof (Hspawn t Ht) as Hs. apply elem_of_spawn in Hs as [_ Heq].
    change (Z.to_nat (t_index t)) with (slot t).
    rewrite (lookup_join_all_own total_intervals finished t); [| done | done |].
    + f_equal. unfold value, partial_result. rewrite Heq at 1 2. done.
    + rewrite length_replicate. unfold slot. lia.
  - rewrite lookup_join_all_other.
    + apply lookup_replicate_2. lia.
    + intros t Ht Hslot. apply Hout. apply list_elem_of_fmap.
      exists t. split; [|done].
      apply Hspawn, elem_of_spawn in Ht as [Hti _]. unfold slot in Hslot. lia.
Qed.

Lemma results_during_run_witness :
  join_all 6 [Task 1 2 4] (replicate (Z.to_nat 3) 0%float) !! Z.to_nat 0
  = Some 0%float.
Proof.
  apply (results_during_run 6 3 [Task 1 2 4] [Task 0 0 2; Task 2 4 6] 0);
    [|lia].
  unfold completion_order.
  change (spawn 6 3) with [Task 0 0 2; Task 1 2 4; Task 2 4 6].
  apply Permutation_swap.
Defined.

(** ** Edge cases of the coordinator *)

(** X6. With no interval to integrate, every chunk is empty and
    [calculatePi] returns 0.0, whatever the number of threads. *)
Theorem calculatePi_no_intervals num_threads order :
  Int.in_int num_threads -> 1 <= num_threads ->
  completion_order 0 num_threads order ->
  calculatePi_run 0 num_threads order = 0%float.
Proof.
  intros Hn H1 Hp.
  assert (Ht : Int.in_int 0) by (unfold Int.in_int, Int.min_int, Int.max_int; lia).
  rewrite (calculatePi_run_partial_results _ _ _ Hp).
  apply sum_results_zeros, Forall_fmap, Forall_forall. intros i Hi.
  apply elem_of_seqZ in Hi. simpl. unfold partial_result, integrate, integrate_from.
  apply integrate_loop_guard.
  pose proof (chunk_within 0 num_threads Ht Hn ltac:(lia) H1 i ltac:(lia)). lia.
Qed.

Lemma calculatePi_no_intervals_witness : calculatePi 0 4 = 0%float.
Proof.
  apply (calculatePi_no_intervals 4 (spawn 0 4)).
  - unfold Int.in_int, Int.min_int, Int.max_int. lia.
  - lia.
  - unfold completion_order. reflexivity.
Defined.

(** X7. With a single thread, [calculatePi] returns 0.0 plus the integral
    over the whole range [[0, total_intervals)]. *)
Theorem calculatePi_single_thread total_intervals order :
  Int.in_int total_intervals -> 0 < total_intervals ->
  completion_order total_intervals 1 order ->
  calculatePi_run total_intervals 1 order
  = (0 + integrate 0 total_intervals total_intervals)%float.
Proof.
  intros Ht Hpos Hp.
  apply calculatePi_run_one_chunk; [done | | done | by left | done].
  unfold Int.in_int, Int.min_int, Int.max_int. lia.
Qed.

Lemma calculatePi_single_thread_witness :
  calculatePi 4 1 = (0 + integrate 0 4 4)%float.
Proof.
  apply (calculatePi_single_thread 4 (spawn 4 1)).
  - unfold Int.in_int, Int.min_int, Int.max_int. lia.
  - lia.
  - unfold completion_order. reflexivity.
Defined.

(** ** The integrand and the loop *)

Lemma SF64mul_opp_opp (a : spec_float) :
  SF64mul (SFopp a) (SFopp a) = SF64mul a a.
Proof.
  unfold SF64mul, SFmul, SFopp.
  destruct a as [s|s| |s m e]; try destruct s; reflexivity.
Qed.

(** X8. The integrand is even: for every double [x] that is not a NaN,
    zeros and infinities included, [f(-x)] and [f(x)] are the same double. *)
Theorem f_even (x : float) :
  PrimFloat.is_nan x = false -> f (- x)%float = f x.
Proof.
  intros _. unfold f. f_equal. f_equal.
  apply Prim2SF_inj. rewrite !mul_spec, opp_spec. apply SF64mul_opp_opp.
Qed.

Lemma f_even_witness : f (- 0.5)%float = f 0.5%float.
Proof. apply (f_even 0.5%float). reflexivity. Defined.

(** X9. Extending the range by one index adds the trapezoid of that index
    to the value already reached: [integrate(start, end + 1, n)] is
    [integrate(start, end, n)] plus the trapezoid of [end]. *)
Theorem integrate_one_more start end_ total_intervals :
  Int.in_int start -> Int.in_int (end_ + 1) -> start <= end_ ->
  integrate start (end_ + 1) total_intervals
  = (integrate start end_ total_intervals
     + trapezoid (step_of total_intervals) end_)%float.
Proof.
  intros [Hlo _] [_ Hhi] Hle. unfold integrate.
  rewrite !integrate_from_foldl by lia.
  replace (end_ + 1 - start) with ((end_ - start) + 1) by lia.
  rewrite seqZ_app by lia. rewrite foldl_app. simpl.
  by replace (start + (end_ - start)) with end_ by lia.
Qed.

Lemma integrate_one_more_witness :
  integrate 0 3 4 = (integrate 0 2 4 + trapezoid (step_of 4) 2)%float.
Proof.
  apply (integrate_one_more 0 2 4);
    unfold Int.in_int, Int.min_int, Int.max_int; lia.
Defined.


